(** * Agents of the Havven market simulation

    A shallow embedding of [agents/marketplayer.py] and [agents/banker.py].

    Monetary quantities are Python [Decimal]s.  A decimal is embedded as
    its value, a rational in canonical form ([Qc]), so that equal amounts
    are equal terms.  The arithmetic of the sources is the [decimal]
    module's: every [+], [-] and [/] rounds its exact result to the 28
    significant digits of the default context, half to even ([dec_add],
    [dec_sub], [dec_truediv]); the sources do not change the context, and
    its exponent bounds are not part of the model.  What is modelled from
    the spec (fees, valuation at fixed prices) computes exactly, as the
    spec's accounting does.  Python exceptions are an explicit [result];
    methods that call into the order books thread the model state. *)

From Stdlib Require Import Ascii String DecimalString DecimalZ.
From Stdlib Require Import ZArith List QArith Qpower Qfield Qcanon Floats Lia Lqa.
Import ListNotations.

Open Scope Qc_scope.

(** ** Decimals *)

Abbreviation Dec := Qc.

Definition Dec_of_Z (z : Z) : Dec := Q2Qc (inject_Z z).

Inductive error : Type :=
| EmptyBook
| InvalidAmount
| DivisionByZero
| InvalidOperation.

Inductive result (A : Type) : Type :=
| Ok (a : A)
| Raise (e : error).

Arguments Ok {A} a.
Arguments Raise {A} e.

Definition result_bind {A B} (r : result A) (k : A -> result B) : result B :=
  match r with
  | Ok a => k a
  | Raise e => Raise e
  end.

(** The exact quotient of the spec's accounting: no rounding; a zero
    divisor raises, [DivisionByZero] for a nonzero dividend and
    [InvalidOperation] for [0 / 0].  The division of the sources is
    [dec_truediv] below. *)
Definition dec_div (a b : Dec) : result Dec :=
  if Qc_eq_dec b 0 then
    if Qc_eq_dec a 0 then Raise InvalidOperation else Raise DivisionByZero
  else Ok (a / b).

(** [a != b] on decimals. *)
Definition dec_neqb (a b : Dec) : bool := negb (Qc_eq_bool a b).

(** The builtins [max(a, b)] and [min(a, b)]: the first argument is kept
    unless the second is strictly larger (smaller). *)
Definition py_max (a b : Dec) : Dec := if Qclt_le_dec a b then b else a.
Definition py_min (a b : Dec) : Dec := if Qclt_le_dec b a then b else a.

(** Nearest integer to a rational, ties to the even one. *)
Definition round_half_even (x : Q) : Z :=
  let n := Qnum x in
  let d := Zpos (Qden x) in
  let f := (n / d)%Z in
  let r := (2 * (n mod d))%Z in
  if (r <? d)%Z then f
  else if (d <? r)%Z then (f + 1)%Z
  else if Z.even f then f else (f + 1)%Z.

(** [round(x, ndigits)] on a decimal: quantize to [ndigits] decimal places
    under the context's default rounding (half to even). *)
Definition dec_round (x : Dec) (ndigits : Z) : Dec :=
  let scale := Qpower (inject_Z 10) ndigits in
  Q2Qc (inject_Z (round_half_even (x * scale)%Q) / scale)%Q.

(** ** The arithmetic context *)

(** [floor (log10 n)] for a positive integer, by repeated division; the
    binary logarithm bounds the number of steps. *)
Fixpoint log10_fuel (fuel : nat) (n : Z) : Z :=
  match fuel with
  | O => 0
  | S fuel' => if (n <? 10)%Z then 0 else (1 + log10_fuel fuel' (n / 10))%Z
  end.

Definition Zlog10 (n : Z) : Z := log10_fuel (S (Z.to_nat (Z.log2 n))) n.

Definition ten_to (k : Z) : Q := Qpower (inject_Z 10) k.

(** The exponent of the leading digit of a positive rational:
    [floor (log10 x)]. *)
Definition decimal_exponent (x : Q) : Z :=
  let e0 := (Zlog10 (Qnum x) - Zlog10 (Zpos (Qden x)))%Z in
  if Qle_bool (ten_to e0) x then e0 else (e0 - 1)%Z.

(** A positive rational rounded to [prec] significant digits, half to
    even. *)
Definition round_sig_pos (prec : Z) (x : Q) : Q :=
  let k := (decimal_exponent x - (prec - 1))%Z in
  (inject_Z (round_half_even (x / ten_to k)) * ten_to k)%Q.

Definition round_sig (prec : Z) (x : Dec) : Dec :=
  if Qclt_le_dec 0 x then Q2Qc (round_sig_pos prec x)
  else if Qclt_le_dec x 0 then - Q2Qc (round_sig_pos prec (- x))
  else 0.

(** [decimal.getcontext().prec], which the sources leave at its default. *)
Definition context_prec : Z := 28.

(** What the context makes of an exact result. *)
Definition round_context (x : Dec) : Dec := round_sig context_prec x.

(** [a + b], [a - b] and [a / b] on decimals, as the sources compute them:
    the exact result rounded by the context.  A zero divisor raises,
    [DivisionByZero] for a nonzero dividend and [InvalidOperation] for
    [0 / 0]. *)
Definition dec_add (a b : Dec) : Dec := round_context (a + b).

Definition dec_sub (a b : Dec) : Dec := round_context (a - b).

Definition dec_quotient (a b : Dec) : Dec := round_context (a / b).

Definition dec_truediv (a b : Dec) : result Dec :=
  if Qc_eq_dec b 0 then
    if Qc_eq_dec a 0 then Raise InvalidOperation else Raise DivisionByZero
  else Ok (dec_quotient a b).

(** ** The model the agents reach through [self.model] *)

Inductive OrderState : Type := active | filled | cancelled.

Record LimitOrder : Type := {
  price : Dec;
  quantity : Dec;
  owner : Z;
  sequence : nat;
  state : OrderState
}.

Definition Bid : Type := LimitOrder.
Definition Ask : Type := LimitOrder.

Record OrderBook : Type := {
  bids : list Bid;
  asks : list Ask
}.

Record MarketManager : Type := {
  curit_fiat_market : OrderBook;
  nomin_fiat_market : OrderBook;
  curit_nomin_market : OrderBook
}.

Record FeeManager : Type := {
  fiat_fee_rate : Dec;
  curits_fee_rate : Dec;
  nomins_fee_rate : Dec
}.

Record HavvenManager : Type := {
  currency_precision : Z
}.

Record Havven : Type := {
  manager : HavvenManager;
  fee_manager : FeeManager;
  market_manager : MarketManager
}.

(** Modelled from the spec: [HavvenManager.round_decimal] ([managers.py] is
    not among the sources) rounds to the configured display precision, the
    scale used for the is-this-effectively-zero checks; [Banker.step] spells
    the same test [round(x, self.model.manager.currency_precision)]. *)
Definition round_decimal (hm : HavvenManager) (value : Dec) : Dec :=
  dec_round value (currency_precision hm).

(** ** MarketPlayer *)

Record MarketPlayer : Type := {
  unique_id : Z;
  fiat : Dec;
  curits : Dec;
  nomins : Dec;
  escrowed_curits : Dec;
  issued_nomins : Dec;
  used_fiat : Dec;
  used_curits : Dec;
  used_nomins : Dec;
  initial_wealth : Dec;
  orders : list LimitOrder
}.

Definition set_initial_wealth (self : MarketPlayer) (v : Dec) : MarketPlayer :=
  {| unique_id := unique_id self;
     fiat := fiat self;
     curits := curits self;
     nomins := nomins self;
     escrowed_curits := escrowed_curits self;
     issued_nomins := issued_nomins self;
     used_fiat := used_fiat self;
     used_curits := used_curits self;
     used_nomins := used_nomins self;
     initial_wealth := v;
     orders := orders self |}.

(** [_fraction_(qty, divisor=Dec('3'), minimum=Dec('1'))] *)
Definition _fraction_ (qty divisor minimum : Dec) : result Dec :=
  result_bind (dec_truediv qty divisor) (fun part =>
  Ok (py_max part (py_min minimum qty))).

Definition _fraction_default (qty : Dec) : result Dec :=
  _fraction_ qty (Dec_of_Z 3) (Dec_of_Z 1).

Definition available_fiat (self : MarketPlayer) : Dec :=
  dec_sub (fiat self) (used_fiat self).

Definition available_curits (self : MarketPlayer) : Dec :=
  dec_sub (curits self) (used_curits self).

Definition available_nomins (self : MarketPlayer) : Dec :=
  dec_sub (nomins self) (used_nomins self).

(** What [model.py] provides to the methods below.  Its code is not among
    the sources, so the valuation is an interface: [fiat_value] takes the
    keyword arguments [curits], [nomins], [fiat] in this order. *)
Class Model : Type := {
  fiat_value : Havven -> Dec -> Dec -> Dec -> Dec
}.

Section Wealth.

Context `{Model}.

Definition wealth (havven : Havven) (self : MarketPlayer) : Dec :=
  fiat_value havven
             (dec_add (curits self) (escrowed_curits self))
             (dec_sub (nomins self) (issued_nomins self))
             (fiat self).

(** [__init__]: the attributes are assigned in source order; the
    placeholder for [initial_wealth] is overwritten before it is read. *)
Definition MarketPlayer_init (unique_id : Z) (havven : Havven)
           (fiat curits nomins : Dec) : MarketPlayer :=
  let self :=
    {| unique_id := unique_id;
       fiat := fiat;
       curits := curits;
       nomins := nomins;
       escrowed_curits := 0;
       issued_nomins := 0;
       used_fiat := 0;
       used_curits := 0;
       used_nomins := 0;
       initial_wealth := 0;
       orders := [] |} in
  set_initial_wealth self (wealth havven self).

Definition reset_initial_wealth (havven : Havven) (self : MarketPlayer)
  : Dec * MarketPlayer :=
  let old := initial_wealth self in
  (old, set_initial_wealth self (wealth havven self)).

Definition profit (havven : Havven) (self : MarketPlayer) : Dec :=
  dec_sub (wealth havven self) (initial_wealth self).

Definition profit_fraction (havven : Havven) (self : MarketPlayer)
  : result Dec :=
  if dec_neqb (round_decimal (manager havven) (initial_wealth self)) 0
  then dec_truediv (profit havven self) (initial_wealth self)
  else Ok 0.

End Wealth.

(** Modelled from the spec: a valuation at fixed prices, each asset counted
    at its price in fiat. *)
Definition fiat_value_at (curit_price nomin_price : Dec) : Model :=
  {| fiat_value := fun _ curits nomins fiat =>
       curits * curit_price + nomins * nomin_price + fiat |}.

(** ** Fees and order books, as the agents see them *)

(** Modelled from the spec: [FeeManager.transferred_X_received]
    (the fee manager is not among the sources): the net amount is
    [gross * (1 - fee_rate_X)]; a negative amount is rejected with
    [InvalidAmount]. *)
Definition transferred_received (fee_rate gross : Dec) : result Dec :=
  if Qclt_le_dec gross 0 then Raise InvalidAmount
  else Ok (gross * (1 - fee_rate)).

Definition transferred_fiat_received (fm : FeeManager) : Dec -> result Dec :=
  transferred_received (fiat_fee_rate fm).

Definition transferred_curits_received (fm : FeeManager) : Dec -> result Dec :=
  transferred_received (curits_fee_rate fm).

Definition transferred_nomins_received (fm : FeeManager) : Dec -> result Dec :=
  transferred_received (nomins_fee_rate fm).

(** A reference to one of the three books the market manager owns. *)
Inductive Market : Type := CuritFiat | NominFiat | CuritNomin.

Definition book_of (m : Market) (havven : Havven) : OrderBook :=
  match m with
  | CuritFiat => curit_fiat_market (market_manager havven)
  | NominFiat => nomin_fiat_market (market_manager havven)
  | CuritNomin => curit_nomin_market (market_manager havven)
  end.

(** Methods that reach the books run in a state-and-exception monad over
    the model: an exception leaves the state as it was when raised. *)
Definition M (A : Type) : Type := Havven -> result A * Havven.

Definition ret {A} (a : A) : M A := fun h => (Ok a, h).

Definition bind {A B} (c : M A) (k : A -> M B) : M B :=
  fun h =>
    match c h with
    | (Ok a, h') => k a h'
    | (Raise e, h') => (Raise e, h')
    end.

Definition get : M Havven := fun h => (Ok h, h).

Definition lift {A} (r : result A) : M A := fun h => (r, h).

Notation "x <- c ;; k" := (bind c (fun x => k))
  (at level 61, c at next level, right associativity).

(** Modelled from the spec: [OrderBook.lowest_ask_price] ([orderbook.py] is
    not among the sources) returns the best resting price of the ask side
    and fails with [EmptyBook] if that side has no orders. *)
Definition lowest_ask_price (book : Market) : M Dec :=
  fun h =>
    match asks (book_of book h) with
    | [] => (Raise EmptyBook, h)
    | a :: rest => (Ok (fold_left py_min (map price rest) (price a)), h)
    end.

(** The matching engine's entry points, [book.buy(quantity, buyer, premium)]
    and [book.bid(price, quantity, owner)]: an interface, their code being
    outside these sources. *)
Class Exchange : Type := {
  buy : Market -> Dec -> MarketPlayer -> Dec -> M Bid;
  bid : Market -> Dec -> Dec -> MarketPlayer -> M Bid
}.

Section Trading.

Context `{Exchange}.

Definition _sell_quoted_ (self : MarketPlayer) (book : Market)
           (quantity premium : Dec) : M Bid :=
  price <- lowest_ask_price book ;;
  qty <- lift (dec_truediv quantity price) ;;
  buy book qty self premium.

Definition sell_nomins_for_curits (self : MarketPlayer)
           (quantity premium : Dec) : M Bid :=
  _sell_quoted_ self CuritNomin quantity premium.

Definition sell_fiat_for_curits (self : MarketPlayer)
           (quantity premium : Dec) : M Bid :=
  _sell_quoted_ self CuritFiat quantity premium.

Definition sell_fiat_for_nomins (self : MarketPlayer)
           (quantity premium : Dec) : M Bid :=
  _sell_quoted_ self NominFiat quantity premium.

Definition _sell_quoted_with_fee_ (self : MarketPlayer)
           (received_qty_fn : Dec -> result Dec) (book : Market)
           (quantity premium : Dec) : M Bid :=
  price <- lowest_ask_price book ;;
  qty <- lift (dec_truediv quantity price) ;;
  received <- lift (received_qty_fn qty) ;;
  buy book received self premium.

Definition sell_nomins_for_curits_with_fee (self : MarketPlayer)
           (quantity premium : Dec) : M Bid :=
  model <- get ;;
  _sell_quoted_with_fee_ self
    (transferred_nomins_received (fee_manager model))
    CuritNomin quantity premium.

Definition sell_fiat_for_curits_with_fee (self : MarketPlayer)
           (quantity premium : Dec) : M Bid :=
  model <- get ;;
  _sell_quoted_with_fee_ self
    (transferred_fiat_received (fee_manager model))
    CuritFiat quantity premium.

Definition sell_fiat_for_nomins_with_fee (self : MarketPlayer)
           (quantity premium : Dec) : M Bid :=
  model <- get ;;
  _sell_quoted_with_fee_ self
    (transferred_fiat_received (fee_manager model))
    NominFiat quantity premium.

Definition place_curit_fiat_bid_with_fee (self : MarketPlayer)
           (quantity price : Dec) : M Bid :=
  model <- get ;;
  qty <- lift (transferred_fiat_received (fee_manager model) quantity) ;;
  bid CuritFiat price qty self.

Definition place_nomin_fiat_bid_with_fee (self : MarketPlayer)
           (quantity price : Dec) : M Bid :=
  model <- get ;;
  qty <- lift (transferred_fiat_received (fee_manager model) quantity) ;;
  bid NominFiat price qty self.

Definition place_curit_nomin_bid_with_fee (self : MarketPlayer)
           (quantity price : Dec) : M Bid :=
  model <- get ;;
  qty <- lift (transferred_nomins_received (fee_manager model) quantity) ;;
  bid CuritNomin price qty self.

End Trading.

(** The two callbacks: [pass]. *)
Definition notify_cancelled (self : MarketPlayer) (order : LimitOrder) : M unit :=
  ret tt.

Definition notify_filled (self : MarketPlayer) (order : LimitOrder) : M unit :=
  ret tt.

(** ** Banker *)

(** The generator behind the module-level [random.random()]: one hidden
    state for the whole process.  CPython's Mersenne Twister is not part of
    this repository; its state is represented by the 53-bit integers it is
    going to deliver, [random()] being the next one scaled by [2^-53]. *)
Record Generator : Type := {
  draws : nat -> Z;
  position : nat
}.

Definition random_random (g : Generator) : float * Generator :=
  let k := (draws g (position g) mod 2 ^ 53)%Z in
  (PrimFloat.mul (PrimFloat.of_uint63 (Uint63.of_Z k)) 0x1p-53%float,
   {| draws := draws g; position := S (position g) |}).

(** [Dec(x)] for a float: the exact value of the binary fraction.  The
    non-finite floats, which [random()] does not produce, have no rational
    value and are sent to [0]. *)
Definition Dec_of_float (x : float) : Dec :=
  match Prim2SF x with
  | S754_finite s m e =>
      Q2Qc ((if s then -1 else 1) * inject_Z (Zpos m) * Qpower 2 e)%Q
  | _ => 0
  end.

(** The float literal [0.05], i.e. the double nearest to it. *)
Definition float_0_05 : float := 0x1.999999999999ap-5%float.

Record Banker : Type := {
  player : MarketPlayer;
  fiat_curit_order : option Bid;
  nomin_curit_order : option Bid;
  rate : Dec
}.

Section BankerInit.

Context `{Model}.

(** [Banker.__init__]: its arguments are passed on unchanged to
    [MarketPlayer.__init__]; the generator is not among them. *)
Definition Banker_init (unique_id : Z) (havven : Havven)
           (fiat curits nomins : Dec) (g : Generator) : Banker * Generator :=
  let super := MarketPlayer_init unique_id havven fiat curits nomins in
  let (x, g') := random_random g in
  ({| player := super;
      fiat_curit_order := None;
      nomin_curit_order := None;
      rate := Dec_of_float (PrimFloat.mul x float_0_05) |}, g').

End BankerInit.

(** ** The methods by market *)

(** The quoted-currency sales: the book each one trades on, the fee
    function its [_with_fee] variant passes, and the two methods. *)
Definition quoted_sales `{Exchange}
  : list (Market * (FeeManager -> Dec -> result Dec)
          * (MarketPlayer -> Dec -> Dec -> M Bid)
          * (MarketPlayer -> Dec -> Dec -> M Bid)) :=
  [ (CuritNomin, transferred_nomins_received,
     sell_nomins_for_curits, sell_nomins_for_curits_with_fee);
    (CuritFiat, transferred_fiat_received,
     sell_fiat_for_curits, sell_fiat_for_curits_with_fee);
    (NominFiat, transferred_fiat_received,
     sell_fiat_for_nomins, sell_fiat_for_nomins_with_fee) ].

(** The fee-inclusive bid placements: book, fee function, method. *)
Definition fee_bids `{Exchange}
  : list (Market * (FeeManager -> Dec -> result Dec)
          * (MarketPlayer -> Dec -> Dec -> M Bid)) :=
  [ (CuritFiat, transferred_fiat_received, place_curit_fiat_bid_with_fee);
    (NominFiat, transferred_fiat_received, place_nomin_fiat_bid_with_fee);
    (CuritNomin, transferred_nomins_received, place_curit_nomin_bid_with_fee) ].

(** ** Sample data *)

(** A sample exchange, for running the methods on concrete books: an order
    is validated and then rests on its side of the book.  No matching takes
    place in it. *)
Definition set_book (m : Market) (b : OrderBook) (havven : Havven) : Havven :=
  let mm := market_manager havven in
  {| manager := manager havven;
     fee_manager := fee_manager havven;
     market_manager :=
       match m with
       | CuritFiat =>
           {| curit_fiat_market := b;
              nomin_fiat_market := nomin_fiat_market mm;
              curit_nomin_market := curit_nomin_market mm |}
       | NominFiat =>
           {| curit_fiat_market := curit_fiat_market mm;
              nomin_fiat_market := b;
              curit_nomin_market := curit_nomin_market mm |}
       | CuritNomin =>
           {| curit_fiat_market := curit_fiat_market mm;
              nomin_fiat_market := nomin_fiat_market mm;
              curit_nomin_market := b |}
       end |}.

Definition resting_bid (book : Market) (price quantity : Dec)
           (owner : MarketPlayer) : M Bid :=
  fun h =>
    if Qclt_le_dec 0 price then
      if Qclt_le_dec 0 quantity then
        let b := book_of book h in
        let order :=
          {| price := price; quantity := quantity;
             owner := unique_id owner;
             sequence := length (bids b) + length (asks b);
             state := active |} in
        (Ok order, set_book book {| bids := bids b ++ [order]; asks := asks b |} h)
      else (Raise InvalidAmount, h)
    else (Raise InvalidAmount, h).

Definition resting_exchange : Exchange :=
  {| buy := fun book quantity buyer premium =>
       best <- lowest_ask_price book ;;
       resting_bid book (best * (1 + premium)) quantity buyer;
     bid := resting_bid |}.

Definition sample_ask (p q : Z) (seq : nat) : Ask :=
  {| price := Dec_of_Z p; quantity := Dec_of_Z q; owner := 2;
     sequence := seq; state := active |}.

Definition empty_book : OrderBook := {| bids := []; asks := [] |}.

(** Fees of one percent, a display precision of two digits, asks of 50
    curits at 2 and at 3 fiat on the curit/fiat book, the other books
    empty. *)
Definition sample_havven : Havven :=
  {| manager := {| currency_precision := 2 |};
     fee_manager :=
       {| fiat_fee_rate := Q2Qc (1 # 100);
          curits_fee_rate := Q2Qc (1 # 100);
          nomins_fee_rate := Q2Qc (1 # 100) |};
     market_manager :=
       {| curit_fiat_market :=
            {| bids := []; asks := [sample_ask 3 50 0; sample_ask 2 50 1] |};
          nomin_fiat_market := empty_book;
          curit_nomin_market := empty_book |} |}.

Definition sample_model : Model := fiat_value_at (Dec_of_Z 2) 1.

Definition sample_player : MarketPlayer :=
  @MarketPlayer_init sample_model 1 sample_havven (Dec_of_Z 100) 0 0.

(** A player whose initial wealth, a thousandth, rounds to zero. *)
Definition dust_player : MarketPlayer :=
  @MarketPlayer_init sample_model 3 sample_havven (Q2Qc (1 # 1000)) 0 0.

(** Two states of the module-level generator: the next draw is [1/2] in
    one and [1/4] in the other. *)
Definition generator_half : Generator :=
  {| draws := fun _ => (2 ^ 52)%Z; position := 0 |}.

Definition generator_quarter : Generator :=
  {| draws := fun _ => (2 ^ 51)%Z; position := 0 |}.

(** ** Names *)

(** [f"{self.__class__.__name__} {self.unique_id}"]: the class name is the
    one of the object's own class, the identifier is printed as a decimal
    integer. *)
Definition name (class_name : string) (self : MarketPlayer) : string :=
  String.append class_name
    (String " "%char (NilZero.string_of_int (Z.to_int (unique_id self)))).

Definition __str__ (class_name : string) (self : MarketPlayer) : string :=
  name class_name self.

Definition MarketPlayer_name (self : MarketPlayer) : string :=
  name "MarketPlayer"%string self.

Definition Banker_name (self : Banker) : string :=
  name "Banker"%string (player self).

(** ** More sample data *)

(** Half a unit of the last displayed digit. *)
Definition half_unit (hm : HavvenManager) : Dec :=
  Q2Qc (/ (2 * Qpower (inject_Z 10) (currency_precision hm)))%Q.

(** Two more sample players: one holding 50 free curits and 10 nomins, and
    the same one after escrowing 20 curits and issuing 5 nomins. *)
Definition holder_before : MarketPlayer :=
  @MarketPlayer_init sample_model 4 sample_havven 0 (Dec_of_Z 50) (Dec_of_Z 10).

Definition holder_after : MarketPlayer :=
  {| unique_id := 4;
     fiat := 0;
     curits := Dec_of_Z 30;
     nomins := Dec_of_Z 15;
     escrowed_curits := Dec_of_Z 20;
     issued_nomins := Dec_of_Z 5;
     used_fiat := 0;
     used_curits := 0;
     used_nomins := 0;
     initial_wealth := initial_wealth holder_before;
     orders := [] |}.

(** A balance of 29 significant digits, one more than the context keeps. *)
Definition long_fiat : Dec :=
  Q2Qc (99999999999999999999999999999 # 100000000000000000000000000000).

(** [Dec(0.7)]: the exact value of the double nearest to 0.7, of 52
    significant digits. *)
Definition Dec_0_7 : Dec := Dec_of_float 0x1.6666666666666p-1%float.

(** The sample model with a single ask, at 7 fiat, on the curit/fiat
    book. *)
Definition seven_havven : Havven :=
  set_book CuritFiat {| bids := []; asks := [sample_ask 7 50 0] |} sample_havven.

(** * Properties *)

(** ** Decimal helpers *)

Lemma Ok_inj {A} (a b : A) : Ok a = Ok b -> a = b.
Proof.
  intros E.
  exact (f_equal (fun r => match r with Ok x => x | Raise _ => a end) E).
Qed.

Lemma dec_div_ok (a b : Dec) : b <> 0 -> dec_div a b = Ok (a / b).
Proof.
  intros Hb. unfold dec_div.
  destruct (Qc_eq_dec b 0) as [E | _]; [contradiction | reflexivity].
Qed.

Lemma dec_truediv_ok (a b : Dec) :
  b <> 0 -> dec_truediv a b = Ok (dec_quotient a b).
Proof.
  intros Hb. unfold dec_truediv.
  destruct (Qc_eq_dec b 0) as [E | _]; [contradiction | reflexivity].
Qed.

Lemma dec_neqb_true (a b : Dec) : dec_neqb a b = true <-> a <> b.
Proof.
  unfold dec_neqb, Qc_eq_bool.
  destruct (Qc_eq_dec a b) as [E | N]; simpl; split; intros;
    auto; try discriminate; try contradiction.
Qed.

Lemma dec_neqb_false (a b : Dec) : dec_neqb a b = false <-> a = b.
Proof.
  unfold dec_neqb, Qc_eq_bool.
  destruct (Qc_eq_dec a b) as [E | N]; simpl; split; intros;
    auto; try discriminate; try contradiction.
Qed.

Lemma round_half_even_num0 (x : Q) : Qnum x = 0%Z -> round_half_even x = 0%Z.
Proof.
  intros E. unfold round_half_even. rewrite E.
  rewrite Zdiv_0_l, Zmod_0_l. reflexivity.
Qed.

Lemma dec_round_0 (ndigits : Z) : dec_round 0 ndigits = 0.
Proof.
  unfold dec_round. rewrite round_half_even_num0.
  - apply Q2Qc_eq_iff. unfold Qdiv. apply Qmult_0_l.
  - reflexivity.
Qed.

Lemma round_decimal_nonzero (hm : HavvenManager) (x : Dec) :
  round_decimal hm x <> 0 -> x <> 0.
Proof.
  intros Hr E. apply Hr. subst x. apply dec_round_0.
Qed.

Lemma Qcdiv_le_self (q d : Dec) : 0 <= q -> 1 <= d -> q / d <= q.
Proof.
  intros Hq Hd.
  assert (Hpos : 0 < d) by (apply Qclt_le_trans with 1; [reflexivity | exact Hd]).
  assert (Hne : d <> 0) by (intro E; subst d; discriminate Hpos).
  apply Qcmult_lt_0_le_reg_r with d; [exact Hpos |].
  replace (q / d * d) with (1 * q) by (field; exact Hne).
  rewrite (Qcmult_comm q d).
  apply Qcmult_le_compat_r; assumption.
Qed.

Lemma py_max_lub (a b c : Dec) : a <= c -> b <= c -> py_max a b <= c.
Proof. intros; unfold py_max; destruct (Qclt_le_dec a b); assumption. Qed.

Lemma py_max_ge_l (a b : Dec) : a <= py_max a b.
Proof.
  unfold py_max; destruct (Qclt_le_dec a b) as [L | L].
  - apply Qclt_le_weak, L.
  - apply Qcle_refl.
Qed.

Lemma py_min_le_r (a b : Dec) : py_min a b <= b.
Proof.
  unfold py_min; destruct (Qclt_le_dec b a) as [L | L].
  - apply Qcle_refl.
  - exact L.
Qed.

Lemma Dec_minus_0_r (x : Dec) : x - 0 = x.
Proof. ring. Qed.

Lemma Dec_minus_diag (x : Dec) : x - x = 0.
Proof. ring. Qed.

(** ** Rounding to the context precision *)

Lemma log10_fuel_spec (fuel : nat) :
  forall n, (0 < n < 2 ^ Z.of_nat fuel)%Z ->
            (0 <= log10_fuel fuel n /\
             10 ^ log10_fuel fuel n <= n < 10 ^ (log10_fuel fuel n + 1))%Z.
Proof.
  induction fuel as [| fuel IH]; intros n Hn.
  - simpl in Hn. lia.
  - cbn [log10_fuel]. destruct (Z.ltb_spec n 10) as [L | L].
    + simpl. lia.
    + assert (Hq : (0 < n / 10 < 2 ^ Z.of_nat fuel)%Z).
      { rewrite Nat2Z.inj_succ, Z.pow_succ_r in Hn by lia.
        split.
        - apply Z.div_str_pos. lia.
        - apply Z.div_lt_upper_bound; lia. }
      destruct (IH _ Hq) as (H0 & Hlo & Hhi).
      set (L' := log10_fuel fuel (n / 10)) in *.
      pose proof (Z.div_mod n 10 ltac:(lia)) as Hdm.
      pose proof (Z.mod_pos_bound n 10 ltac:(lia)) as Hm.
      split; [lia |].
      replace (1 + L' + 1)%Z with (Z.succ (L' + 1)) by lia.
      replace (1 + L')%Z with (Z.succ L') by lia.
      rewrite !Z.pow_succ_r by lia. lia.
Qed.

Lemma Zlog10_spec (n : Z) :
  (0 < n)%Z ->
  (0 <= Zlog10 n /\ 10 ^ Zlog10 n <= n < 10 ^ (Zlog10 n + 1))%Z.
Proof.
  intros Hn. unfold Zlog10. apply log10_fuel_spec.
  pose proof (Z.log2_spec n Hn) as [_ Hhi].
  pose proof (Z.log2_nonneg n) as H0.
  rewrite Nat2Z.inj_succ, Z2Nat.id by exact H0. lia.
Qed.

Lemma ten_neq_0 : ~ (inject_Z 10 == 0)%Q.
Proof. discriminate. Qed.

Lemma ten_to_pos (k : Z) : (0 < ten_to k)%Q.
Proof. apply Qpower_0_lt. reflexivity. Qed.

Lemma ten_to_plus (a b : Z) : (ten_to (a + b) == ten_to a * ten_to b)%Q.
Proof. apply Qpower_plus, ten_neq_0. Qed.

Lemma ten_to_opp (a : Z) : (ten_to (- a) == / ten_to a)%Q.
Proof. apply Qpower_opp. Qed.

Lemma ten_to_inject (k : Z) : (0 <= k)%Z -> (ten_to k == inject_Z (10 ^ k))%Q.
Proof. intros Hk. symmetry. apply Zpower_Qpower, Hk. Qed.

Lemma ten_to_le (a b : Z) : (a <= b)%Z -> (ten_to a <= ten_to b)%Q.
Proof. intros H. apply Qpower_le_compat_l; [exact H | discriminate]. Qed.

Lemma ten_to_lt_inv (a b : Z) : (ten_to a < ten_to b)%Q -> (a < b)%Z.
Proof. intros H. apply (Qpower_lt_compat_l_inv _ _ _ H). reflexivity. Qed.

Lemma ten_to_neq_0 (k : Z) : ~ (ten_to k == 0)%Q.
Proof. intro E. pose proof (ten_to_pos k) as H. rewrite E in H. discriminate H. Qed.

Lemma decimal_exponent_spec (x : Q) :
  (0 < x)%Q ->
  (ten_to (decimal_exponent x) <= x /\ x < ten_to (decimal_exponent x + 1))%Q.
Proof.
  intros Hx. unfold decimal_exponent.
  destruct x as [n d]. cbn [Qnum Qden].
  assert (Hn : (0 < n)%Z).
  { unfold Qlt in Hx. cbn in Hx. lia. }
  destruct (Zlog10_spec n Hn) as (Hn0 & Hnlo & Hnhi).
  destruct (Zlog10_spec (Zpos d) ltac:(reflexivity)) as (Hd0 & Hdlo & Hdhi).
  set (ln := Zlog10 n) in *. set (ld := Zlog10 (Zpos d)) in *.
  clearbody ln ld.
  assert (Hup : (n # d < ten_to (ln - ld + 1))%Q).
  { replace (ln - ld + 1)%Z with ((ln + 1) + - ld)%Z by lia.
    rewrite ten_to_plus, ten_to_opp, !ten_to_inject by lia.
    apply Qlt_shift_div_l.
    - change 0%Q with (inject_Z 0). rewrite <- Zlt_Qlt. lia.
    - unfold Qlt, Qmult. cbn [Qnum Qden inject_Z]. nia. }
  assert (Hlow : (ten_to (ln - ld - 1) <= n # d)%Q).
  { replace (ln - ld - 1)%Z with (ln + - (ld + 1))%Z by lia.
    rewrite ten_to_plus, ten_to_opp, !ten_to_inject by lia.
    apply Qle_shift_div_r.
    - change 0%Q with (inject_Z 0). rewrite <- Zlt_Qlt. lia.
    - unfold Qle, Qmult. cbn [Qnum Qden inject_Z]. rewrite Pos.mul_1_r.
      pose proof (Z.pow_nonneg 10 ln ltac:(lia)). nia. }
  destruct (Qle_bool (ten_to (ln - ld)) (n # d)) eqn:E.
  - apply Qle_bool_iff in E. split; assumption.
  - split.
    + exact Hlow.
    + replace (ln - ld - 1 + 1)%Z with (ln - ld)%Z by lia.
      apply Qnot_le_lt. intro H. apply Qle_bool_iff in H. congruence.
Qed.

Lemma round_half_even_near (x : Q) :
  let r := round_half_even x in
  let n := Qnum x in
  let d := Zpos (Qden x) in
  (2 * n - d <= 2 * d * r <= 2 * n + d)%Z /\
  ((2 * d * r = 2 * n + d)%Z -> Z.even r = true) /\
  ((2 * d * r = 2 * n - d)%Z -> Z.even r = true).
Proof.
  destruct x as [n d]. unfold round_half_even. cbn [Qnum Qden].
  pose proof (Z.div_mod n (Zpos d) ltac:(lia)) as Hdm.
  pose proof (Z.mod_pos_bound n (Zpos d) ltac:(lia)) as Hm.
  assert (HD : (0 < Zpos d)%Z) by lia.
  set (f := (n / Zpos d)%Z) in *. set (m := (n mod Zpos d)%Z) in *.
  set (D := Zpos d) in *. clearbody f m D.
  destruct (Z.ltb_spec (2 * m) D) as [L1 | L1].
  - repeat split; try nia.
  - destruct (Z.ltb_spec D (2 * m)) as [L2 | L2].
    + repeat split; try nia.
    + assert (E2 : (2 * m = D)%Z) by lia.
      destruct (Z.even f) eqn:Ev.
      * repeat split; try nia. intros _. exact Ev.
      * assert (Ev1 : Z.even (f + 1) = true).
        { rewrite Z.even_add, Ev. reflexivity. }
        repeat split; try nia. intros _. exact Ev1.
Qed.

Lemma round_half_even_monotone (x y : Q) :
  (x <= y)%Q -> (round_half_even x <= round_half_even y)%Z.
Proof.
  intros Hxy.
  destruct (round_half_even_near x) as (Hx & Hxup & _).
  destruct (round_half_even_near y) as (Hy & _ & Hydown).
  unfold Qle in Hxy.
  set (r1 := round_half_even x) in *. set (r2 := round_half_even y) in *.
  set (n1 := Qnum x) in *. set (n2 := Qnum y) in *.
  assert (H1 : (0 < Zpos (Qden x))%Z) by lia.
  assert (H2 : (0 < Zpos (Qden y))%Z) by lia.
  set (d1 := Zpos (Qden x)) in *. set (d2 := Zpos (Qden y)) in *.
  clearbody r1 r2 n1 n2 d1 d2.
  destruct (Z.le_gt_cases r1 r2) as [Hle | Hgt]; [exact Hle | exfalso].
  assert (Hchain1 : (2 * d1 * d2 * r1 <= 2 * n1 * d2 + d1 * d2)%Z) by nia.
  assert (Hchain2 : (2 * n2 * d1 - d1 * d2 <= 2 * d1 * d2 * r2)%Z) by nia.
  assert (Hchain3 : (2 * d1 * d2 * (r2 + 1) <= 2 * d1 * d2 * r1)%Z) by nia.
  assert (E1 : (2 * d1 * r1 = 2 * n1 + d1)%Z) by nia.
  assert (E2 : (2 * d2 * r2 = 2 * n2 - d2)%Z) by nia.
  assert (E3 : (r1 = r2 + 1)%Z) by nia.
  specialize (Hxup E1). specialize (Hydown E2).
  subst r1. rewrite Z.even_add, Hydown in Hxup. discriminate Hxup.
Qed.

Lemma round_half_even_inject (k : Z) : round_half_even (inject_Z k) = k.
Proof.
  unfold round_half_even, inject_Z. cbn [Qnum Qden].
  rewrite Z.div_1_r, Z.mod_1_r. reflexivity.
Qed.

Lemma round_half_even_proper (x y : Q) :
  (x == y)%Q -> round_half_even x = round_half_even y.
Proof.
  intros E. apply Z.le_antisymm; apply round_half_even_monotone;
    rewrite E; apply Qle_refl.
Qed.

Lemma scaled_bounds (prec : Z) (x : Q) :
  (1 <= prec)%Z -> (0 < x)%Q ->
  let k := (decimal_exponent x - (prec - 1))%Z in
  (inject_Z (10 ^ (prec - 1)) <= x / ten_to k /\
   x / ten_to k <= inject_Z (10 ^ prec))%Q.
Proof.
  intros Hp Hx k.
  destruct (decimal_exponent_spec x Hx) as [Hlo Hhi].
  pose proof (ten_to_pos k) as Hk.
  pose proof (ten_to_inject (prec - 1) ltac:(lia)) as E1.
  pose proof (ten_to_inject prec ltac:(lia)) as E2.
  rewrite <- E1, <- E2.
  split.
  - apply Qle_shift_div_l; [exact Hk |].
    rewrite <- ten_to_plus.
    replace (prec - 1 + k)%Z with (decimal_exponent x) by (unfold k; lia).
    exact Hlo.
  - apply Qle_shift_div_r; [exact Hk |].
    rewrite <- ten_to_plus.
    replace (prec + k)%Z with (decimal_exponent x + 1)%Z by (unfold k; lia).
    apply Qlt_le_weak, Hhi.
Qed.

Lemma round_sig_pos_bounds (prec : Z) (x : Q) :
  (1 <= prec)%Z -> (0 < x)%Q ->
  (ten_to (decimal_exponent x) <= round_sig_pos prec x /\
   round_sig_pos prec x <= ten_to (decimal_exponent x + 1))%Q.
Proof.
  intros Hp Hx. unfold round_sig_pos. cbv zeta.
  destruct (scaled_bounds prec x Hp Hx) as [Hlo Hhi].
  set (k := (decimal_exponent x - (prec - 1))%Z) in *.
  apply round_half_even_monotone in Hlo, Hhi.
  rewrite round_half_even_inject in Hlo, Hhi.
  pose proof (ten_to_pos k) as Hk.
  set (r := round_half_even (x / ten_to k)) in *.
  split.
  - replace (decimal_exponent x) with ((prec - 1) + k)%Z by (unfold k; lia).
    rewrite ten_to_plus, (ten_to_inject (prec - 1)) by lia.
    apply Qmult_le_compat_r; [| apply Qlt_le_weak, Hk].
    rewrite <- Zle_Qle. exact Hlo.
  - replace (decimal_exponent x + 1)%Z with (prec + k)%Z by (unfold k; lia).
    rewrite ten_to_plus, (ten_to_inject prec) by lia.
    apply Qmult_le_compat_r; [| apply Qlt_le_weak, Hk].
    rewrite <- Zle_Qle. exact Hhi.
Qed.

Lemma round_sig_pos_positive (prec : Z) (x : Q) :
  (1 <= prec)%Z -> (0 < x)%Q -> (0 < round_sig_pos prec x)%Q.
Proof.
  intros Hp Hx.
  apply Qlt_le_trans with (ten_to (decimal_exponent x)).
  - apply ten_to_pos.
  - apply round_sig_pos_bounds; assumption.
Qed.

Lemma round_sig_pos_monotone (prec : Z) (x y : Q) :
  (1 <= prec)%Z -> (0 < x)%Q -> (x <= y)%Q ->
  (round_sig_pos prec x <= round_sig_pos prec y)%Q.
Proof.
  intros Hp Hx Hxy.
  assert (Hy : (0 < y)%Q) by (apply Qlt_le_trans with x; assumption).
  destruct (decimal_exponent_spec x Hx) as [Hxlo Hxhi].
  destruct (decimal_exponent_spec y Hy) as [Hylo Hyhi].
  assert (He : (decimal_exponent x < decimal_exponent y + 1)%Z).
  { apply ten_to_lt_inv.
    apply Qle_lt_trans with x; [exact Hxlo |].
    apply Qle_lt_trans with y; assumption. }
  destruct (Z.eq_dec (decimal_exponent x) (decimal_exponent y)) as [E | N].
  - unfold round_sig_pos. cbv zeta. rewrite E.
    set (k := (decimal_exponent y - (prec - 1))%Z).
    pose proof (ten_to_pos k) as Hk.
    apply Qmult_le_compat_r; [| apply Qlt_le_weak, Hk].
    rewrite <- Zle_Qle. apply round_half_even_monotone.
    apply Qmult_le_compat_r; [exact Hxy |].
    apply Qlt_le_weak, Qinv_lt_0_compat, Hk.
  - destruct (round_sig_pos_bounds prec x Hp Hx) as [_ Hxup].
    destruct (round_sig_pos_bounds prec y Hp Hy) as [Hydown _].
    apply Qle_trans with (ten_to (decimal_exponent x + 1)); [exact Hxup |].
    apply Qle_trans with (ten_to (decimal_exponent y)); [| exact Hydown].
    apply ten_to_le. lia.
Qed.

Lemma round_sig_0 (prec : Z) : round_sig prec 0 = 0.
Proof. reflexivity. Qed.

Lemma Qc_this_Q2Qc (q : Q) : (this (Q2Qc q) == q)%Q.
Proof. cbn [this Q2Qc]. apply Qred_correct. Qed.

Lemma Q2Qc_le (q1 q2 : Q) : (q1 <= q2)%Q -> Q2Qc q1 <= Q2Qc q2.
Proof. intros H. unfold Qcle. cbn [this Q2Qc]. rewrite !Qred_correct. exact H. Qed.

Lemma Q2Qc_lt (q1 q2 : Q) : (q1 < q2)%Q -> Q2Qc q1 < Q2Qc q2.
Proof. intros H. unfold Qclt. cbn [this Q2Qc]. rewrite !Qred_correct. exact H. Qed.

Lemma Qcopp_pos (x : Dec) : x < 0 -> (0 < - x)%Q.
Proof.
  intros H. unfold Qclt in H. cbn [this Q2Qc] in H.
  rewrite Qred_correct in H. lra.
Qed.

Lemma Qcopp_le_this (x y : Dec) : x <= y -> (- y <= - x)%Q.
Proof. intros H. unfold Qcle in H. lra. Qed.

Lemma round_sig_sign (prec : Z) (x : Dec) :
  (1 <= prec)%Z ->
  (0 < x -> 0 < round_sig prec x) /\
  (x < 0 -> round_sig prec x < 0) /\
  (x = 0 -> round_sig prec x = 0).
Proof.
  intros Hp. unfold round_sig.
  destruct (Qclt_le_dec 0 x) as [Hpos | Hnp].
  - repeat split.
    + intros _. change 0 with (Q2Qc 0). apply Q2Qc_lt.
      apply round_sig_pos_positive; assumption.
    + intros Hneg. exfalso. exact (Qclt_not_le _ _ Hpos (Qclt_le_weak _ _ Hneg)).
    + intros E. subst x. discriminate Hpos.
  - destruct (Qclt_le_dec x 0) as [Hneg | Hnn].
    + assert (Hr : (0 < round_sig_pos prec (- x))%Q).
      { apply round_sig_pos_positive; [exact Hp | apply Qcopp_pos, Hneg]. }
      repeat split.
      * intros Hpos. exfalso. exact (Qcle_not_lt _ _ Hnp Hpos).
      * intros _. apply Qclt_minus_iff. rewrite Qcplus_0_l, Qcopp_involutive.
        change 0 with (Q2Qc 0). apply Q2Qc_lt, Hr.
      * intros E. subst x. discriminate Hneg.
    + repeat split; try reflexivity.
      * intros Hpos. exfalso. exact (Qcle_not_lt _ _ Hnp Hpos).
      * intros Hneg. exfalso. exact (Qcle_not_lt _ _ Hnn Hneg).
Qed.

Lemma round_sig_monotone (prec : Z) (x y : Dec) :
  (1 <= prec)%Z -> x <= y -> round_sig prec x <= round_sig prec y.
Proof.
  intros Hp Hxy.
  destruct (round_sig_sign prec x Hp) as (Sxp & Sxn & Sx0).
  destruct (round_sig_sign prec y Hp) as (Syp & Syn & Sy0).
  destruct (Qc_dec 0 x) as [[Hx | Hx] | Hx].
  - assert (Hy : 0 < y) by (apply Qclt_le_trans with x; assumption).
    unfold round_sig.
    destruct (Qclt_le_dec 0 x) as [_ | C]; [| exfalso; exact (Qcle_not_lt _ _ C Hx)].
    destruct (Qclt_le_dec 0 y) as [_ | C]; [| exfalso; exact (Qcle_not_lt _ _ C Hy)].
    apply Q2Qc_le. apply round_sig_pos_monotone; assumption.
  - specialize (Sxn Hx).
    destruct (Qc_dec 0 y) as [[Hy | Hy] | Hy].
    + apply Qclt_le_weak. apply Qclt_trans with 0; auto.
    + unfold round_sig.
      destruct (Qclt_le_dec 0 x) as [C | _];
        [exfalso; exact (Qclt_not_le _ _ C (Qclt_le_weak _ _ Hx)) |].
      destruct (Qclt_le_dec 0 y) as [C | _];
        [exfalso; exact (Qclt_not_le _ _ C (Qclt_le_weak _ _ Hy)) |].
      destruct (Qclt_le_dec x 0) as [_ | C]; [| exfalso; exact (Qcle_not_lt _ _ C Hx)].
      destruct (Qclt_le_dec y 0) as [_ | C]; [| exfalso; exact (Qcle_not_lt _ _ C Hy)].
      apply Qcopp_le_compat. apply Q2Qc_le.
      apply round_sig_pos_monotone;
        [exact Hp | apply Qcopp_pos, Hy | apply Qcopp_le_this, Hxy].
    + rewrite (Sy0 (eq_sym Hy)). apply Qclt_le_weak, Sxn.
  - rewrite (Sx0 (eq_sym Hx)). subst x.
    destruct (Qcle_lt_or_eq _ _ Hxy) as [Hy | Hy].
    + apply Qclt_le_weak, Syp, Hy.
    + rewrite (Sy0 (eq_sym Hy)). apply Qcle_refl.
Qed.

Lemma context_prec_pos : (1 <= context_prec)%Z.
Proof. discriminate. Qed.

(** The context rounds monotonically and keeps zero. *)
Lemma round_context_monotone (x y : Dec) :
  x <= y -> round_context x <= round_context y.
Proof. apply round_sig_monotone, context_prec_pos. Qed.

Lemma round_context_0 : round_context 0 = 0.
Proof. reflexivity. Qed.

Lemma dec_sub_0_r (x : Dec) : dec_sub x 0 = round_context x.
Proof. unfold dec_sub. rewrite Dec_minus_0_r. reflexivity. Qed.

Lemma dec_sub_diag (x : Dec) : dec_sub x x = 0.
Proof. unfold dec_sub. rewrite Dec_minus_diag. apply round_context_0. Qed.

Lemma dec_quotient_0_l (x : Dec) : dec_quotient 0 x = 0.
Proof.
  unfold dec_quotient, Qcdiv. rewrite Qcmult_0_l. apply round_context_0.
Qed.

Ltac dec_order :=
  unfold Qcle, Qclt; cbv;
  first [ reflexivity | let Hgt := fresh in intro Hgt; discriminate Hgt ].

Ltac dec_differ :=
  let E := fresh in
  intro E; apply (f_equal this) in E; vm_compute in E; discriminate E.

(** ** Balances, wealth and profit *)



(** C7, as stated, fails: constructed with a fiat balance of 29
    significant digits, the player has an [available_fiat] that is not
    its [fiat], the subtraction of the zero reservation having rounded. *)
Lemma available_differs_from_long_balance :
  0 <= long_fiat /\
  available_fiat (@MarketPlayer_init sample_model 1 sample_havven long_fiat 0 0)
  <> fiat (@MarketPlayer_init sample_model 1 sample_havven long_fiat 0 0).
Proof.
  split; [dec_order | dec_differ].
Qed.

Section WealthFacts.

Context `{Model}.

Lemma wealth_set_initial_wealth havven self v :
  wealth havven (set_initial_wealth self v) = wealth havven self.
Proof. reflexivity. Qed.

(** C7, amended. Right after construction with non-negative initial
    balances all three reservations, the escrow and the issuance are zero;
    hence no asset is over-reserved, and every available balance is the
    balance rounded to the context precision: the balance itself whenever
    it has no more than 28 significant digits. *)
Theorem init_has_no_reservation
        (uid : Z) (havven : Havven) (f c n : Dec) :
  0 <= f -> 0 <= c -> 0 <= n ->
  let self := MarketPlayer_init uid havven f c n in
  (fiat self = f /\ curits self = c /\ nomins self = n) /\
  (used_fiat self = 0 /\ used_curits self = 0 /\ used_nomins self = 0) /\
  (escrowed_curits self = 0 /\ issued_nomins self = 0) /\
  (used_fiat self <= fiat self /\ used_curits self <= curits self /\
   used_nomins self <= nomins self) /\
  (available_fiat self = round_context (fiat self) /\
   available_curits self = round_context (curits self) /\
   available_nomins self = round_context (nomins self)) /\
  ((round_context f = f -> available_fiat self = fiat self) /\
   (round_context c = c -> available_curits self = curits self) /\
   (round_context n = n -> available_nomins self = nomins self)).
Proof.
  intros Hf Hc Hn self.
  unfold available_fiat, available_curits, available_nomins.
  subst self; simpl.
  rewrite !dec_sub_0_r.
  repeat split; auto.
Qed.

(** C9. [reset_initial_wealth()] returns the previous [initial_wealth] and
    stores the current [wealth()], leaving the balances alone; with the
    model and the balances unchanged, [profit()] is then [0]. *)
Theorem reset_initial_wealth_zeroes_profit (havven : Havven) (self : MarketPlayer) :
  let r := reset_initial_wealth havven self in
  fst r = initial_wealth self /\
  initial_wealth (snd r) = wealth havven self /\
  snd r = set_initial_wealth self (wealth havven self) /\
  wealth havven (snd r) = wealth havven self /\
  profit havven (snd r) = 0.
Proof.
  simpl. repeat split.
  unfold profit. rewrite wealth_set_initial_wealth. simpl.
  apply dec_sub_diag.
Qed.

(** C8. [profit_fraction()] always returns: it is
    [profit() / initial_wealth] when [initial_wealth] rounded to the
    display precision is nonzero, in which case [initial_wealth] itself
    is nonzero and the division is defined, and it is exactly [0]
    otherwise, whatever the unrounded [initial_wealth] is. *)
Theorem profit_fraction_total (havven : Havven) (self : MarketPlayer) :
  (exists v, profit_fraction havven self = Ok v) /\
  (round_decimal (manager havven) (initial_wealth self) <> 0 ->
     initial_wealth self <> 0 /\
     profit_fraction havven self =
       Ok (dec_quotient (profit havven self) (initial_wealth self))) /\
  (round_decimal (manager havven) (initial_wealth self) = 0 ->
     profit_fraction havven self = Ok 0).
Proof.
  unfold profit_fraction.
  destruct (dec_neqb (round_decimal (manager havven) (initial_wealth self)) 0)
    eqn:E.
  - apply dec_neqb_true in E.
    pose proof (round_decimal_nonzero _ _ E) as Hne.
    rewrite (dec_truediv_ok _ _ Hne).
    split; [eexists; reflexivity |].
    split; [intros _; split; [exact Hne | reflexivity] |].
    intros Hz. contradiction.
  - apply dec_neqb_false in E.
    split; [eexists; reflexivity |].
    split; [intros Hnz; contradiction | reflexivity].
Qed.

End WealthFacts.

(** C10, as stated, fails: the fraction of [Dec(0.7)] by a divisor of one
    is the 28-digit rounding of the reserve, which is above it. *)
Lemma fraction_exceeds_long_reserve :
  0 <= Dec_0_7 /\ 1 <= 1 /\
  exists v, _fraction_ Dec_0_7 1 0 = Ok v /\ Dec_0_7 < v.
Proof.
  split; [dec_order |]. split; [dec_order |].
  eexists. split; [reflexivity | dec_order].
Qed.

(** C10, amended. For a non-negative quantity and a divisor of at least
    one, [_fraction_] returns a value that is at least [qty / divisor] as
    the division of the sources computes it, and at most the larger of the
    quantity and the quantity rounded to the context precision: at most
    the quantity itself whenever it has no more than 28 significant
    digits. *)
Theorem fraction_within_bounds (qty divisor minimum : Dec) :
  0 <= qty -> 1 <= divisor ->
  exists v, _fraction_ qty divisor minimum = Ok v /\
            dec_quotient qty divisor <= v /\
            (v <= qty \/ v <= round_context qty) /\
            (round_context qty = qty -> v <= qty).
Proof.
  intros Hq Hd.
  assert (Hne : divisor <> 0).
  { intro E; subst divisor. apply (Qcle_not_lt _ _ Hd). reflexivity. }
  assert (Hpart : dec_quotient qty divisor <= round_context qty).
  { apply round_context_monotone, Qcdiv_le_self; assumption. }
  unfold _fraction_. rewrite (dec_truediv_ok _ _ Hne). simpl.
  eexists; split; [reflexivity |]. split; [apply py_max_ge_l |]. split.
  - unfold py_max.
    destruct (Qclt_le_dec (dec_quotient qty divisor) (py_min minimum qty)).
    + left. apply py_min_le_r.
    + right. exact Hpart.
  - intros Hfits. apply py_max_lub.
    + rewrite <- Hfits at 2. exact Hpart.
    + apply py_min_le_r.
Qed.

Lemma fraction_within_bounds_witness :
  0 <= Dec_of_Z 10 /\ 1 <= Dec_of_Z 3 /\
  exists v, _fraction_ (Dec_of_Z 10) (Dec_of_Z 3) (Dec_of_Z 1) = Ok v /\
            dec_quotient (Dec_of_Z 10) (Dec_of_Z 3) <= v /\
            (v <= Dec_of_Z 10 \/ v <= round_context (Dec_of_Z 10)) /\
            (round_context (Dec_of_Z 10) = Dec_of_Z 10 -> v <= Dec_of_Z 10).
Proof.
  assert (Hq : 0 <= Dec_of_Z 10) by dec_order.
  assert (Hd : 1 <= Dec_of_Z 3) by dec_order.
  split; [exact Hq |]. split; [exact Hd |].
  exact (fraction_within_bounds (Dec_of_Z 10) (Dec_of_Z 3) (Dec_of_Z 1) Hq Hd).
Defined.

Lemma init_has_no_reservation_witness :
  let self := sample_player in
  (0 <= Dec_of_Z 100 /\ round_context (Dec_of_Z 100) = Dec_of_Z 100) /\
  (fiat self = Dec_of_Z 100 /\ curits self = 0 /\ nomins self = 0) /\
  (used_fiat self = 0 /\ used_curits self = 0 /\ used_nomins self = 0) /\
  (escrowed_curits self = 0 /\ issued_nomins self = 0) /\
  (used_fiat self <= fiat self /\ used_curits self <= curits self /\
   used_nomins self <= nomins self) /\
  (available_fiat self = fiat self /\ available_curits self = curits self /\
   available_nomins self = nomins self).
Proof.
  assert (Hf : 0 <= Dec_of_Z 100) by dec_order.
  assert (H0 : 0 <= 0) by dec_order.
  assert (Ff : round_context (Dec_of_Z 100) = Dec_of_Z 100)
    by (apply Qc_is_canon; vm_compute; reflexivity).
  assert (F0 : round_context 0 = 0) by reflexivity.
  destruct (@init_has_no_reservation sample_model 1 sample_havven
              (Dec_of_Z 100) 0 0 Hf H0 H0)
    as (Hbal & Hused & Hesc & Hle & _ & Hfit1 & Hfit2 & Hfit3).
  split; [split; assumption |].
  split; [exact Hbal |]. split; [exact Hused |].
  split; [exact Hesc |]. split; [exact Hle |].
  split; [exact (Hfit1 Ff) | split; [exact (Hfit2 F0) | exact (Hfit3 F0)]].
Defined.

Lemma profit_fraction_total_witness :
  initial_wealth dust_player <> 0 /\
  @profit_fraction sample_model sample_havven dust_player = Ok 0 /\
  @profit_fraction sample_model sample_havven sample_player =
    Ok (dec_quotient (@profit sample_model sample_havven sample_player)
                     (initial_wealth sample_player)).
Proof.
  pose proof (@profit_fraction_total sample_model sample_havven dust_player)
    as [_ [_ Hzero]].
  pose proof (@profit_fraction_total sample_model sample_havven sample_player)
    as [_ [Hnz _]].
  split; [| split].
  - dec_differ.
  - apply Hzero. apply Qc_is_canon. vm_compute. reflexivity.
  - apply Hnz. dec_differ.
Defined.
(** ** Fees *)

Lemma transferred_received_ok (rate gross : Dec) :
  0 <= gross -> transferred_received rate gross = Ok (gross * (1 - rate)).
Proof.
  intros Hg. unfold transferred_received.
  destruct (Qclt_le_dec gross 0) as [L | _]; [| reflexivity].
  exfalso. exact (Qcle_not_lt _ _ Hg L).
Qed.

Lemma transferred_received_negative (rate gross : Dec) :
  gross < 0 -> transferred_received rate gross = Raise InvalidAmount.
Proof.
  intros Hg. unfold transferred_received.
  destruct (Qclt_le_dec gross 0) as [_ | L]; [reflexivity |].
  exfalso. exact (Qcle_not_lt _ _ L Hg).
Qed.

Lemma Qcpos_neq_0 (p : Dec) : 0 < p -> p <> 0.
Proof. intros Hp E. subst p. discriminate Hp. Qed.

Lemma Qcmult_sign_pos (q p : Dec) : 0 < p -> (q * p < 0 <-> q < 0).
Proof.
  intros Hp. split; intros Hq.
  - destruct (Qclt_le_dec q 0) as [L | L]; [exact L | exfalso].
    apply (Qcle_not_lt 0 (q * p)); [| exact Hq].
    rewrite <- (Qcmult_0_l p).
    apply Qcmult_le_compat_r; [exact L | apply Qclt_le_weak, Hp].
  - rewrite <- (Qcmult_0_l p). apply Qcmult_lt_compat_r; assumption.
Qed.

(** The fee is multiplicative, so it commutes with a positive price. *)
Lemma transferred_received_scales (rate q p : Dec) :
  0 < p ->
  result_bind (transferred_received rate (q * p)) (fun net => dec_div net p)
  = transferred_received rate q.
Proof.
  intros Hp. pose proof (Qcpos_neq_0 _ Hp) as Hne.
  destruct (Qclt_le_dec q 0) as [Hq | Hq].
  - rewrite (transferred_received_negative _ _ Hq).
    rewrite transferred_received_negative; [reflexivity |].
    apply Qcmult_sign_pos; assumption.
  - rewrite (transferred_received_ok _ _ Hq).
    rewrite transferred_received_ok.
    + simpl. rewrite (dec_div_ok _ _ Hne). f_equal. field. exact Hne.
    + destruct (Qclt_le_dec (q * p) 0) as [L | L]; [exfalso | exact L].
      apply Qcmult_sign_pos in L; [| exact Hp].
      exact (Qcle_not_lt _ _ Hq L).
Qed.

Lemma fee_bid_cost (rate q p : Dec) :
  0 < p -> 0 <= q ->
  exists qty,
    transferred_received rate q = Ok qty /\
    transferred_received rate (q * p) = Ok (p * qty) /\
    (forall x, transferred_received rate (q * p) = Ok (p * x) -> x = qty).
Proof.
  intros Hp Hq. pose proof (Qcpos_neq_0 _ Hp) as Hne.
  assert (Hqp : 0 <= q * p).
  { rewrite <- (Qcmult_0_l p).
    apply Qcmult_le_compat_r; [exact Hq | apply Qclt_le_weak, Hp]. }
  rewrite (transferred_received_ok _ _ Hq), (transferred_received_ok _ _ Hqp).
  exists (q * (1 - rate)). split; [reflexivity |]. split.
  - f_equal. ring.
  - intros x Hx. apply Ok_inj in Hx.
    replace x with (p * x / p) by (field; exact Hne).
    rewrite <- Hx. field. exact Hne.
Qed.

(** ** Orders sized off the best ask *)

Lemma lowest_ask_price_empty (book : Market) (h : Havven) :
  asks (book_of book h) = [] ->
  lowest_ask_price book h = (Raise EmptyBook, h).
Proof. intros E. unfold lowest_ask_price. rewrite E. reflexivity. Qed.

(** C5, as stated, fails: selling 1 fiat with fee against a best ask of 7,
    with fees of one percent, the bid is requested for the fee-adjusted
    quotient [1 / 7], not for the quotient of the fee-adjusted quantity;
    the two differ in the last digits. *)
Lemma fee_is_taken_after_division :
  lowest_ask_price CuritFiat seven_havven = (Ok (Dec_of_Z 7), seven_havven) /\
  fst (@sell_fiat_for_curits_with_fee resting_exchange
         sample_player 1 0 seven_havven)
  <> fst ((net <- lift (transferred_fiat_received (fee_manager seven_havven) 1) ;;
           qty <- lift (dec_truediv net (Dec_of_Z 7)) ;;
           @buy resting_exchange CuritFiat qty sample_player 0) seven_havven).
Proof.
  split; [reflexivity |].
  intro E.
  apply (f_equal (fun r => match r with
                           | Ok b => this (quantity b)
                           | Raise _ => 0%Q
                           end)) in E.
  vm_compute in E. discriminate E.
Qed.

Section TradingFacts.

Context `{Exchange}.

Lemma sell_quoted_at (self : MarketPlayer) (book : Market)
      (q premium p : Dec) (h : Havven) :
  lowest_ask_price book h = (Ok p, h) -> p <> 0 ->
  _sell_quoted_ self book q premium h
  = buy book (dec_quotient q p) self premium h.
Proof.
  intros Hp Hne. unfold _sell_quoted_, bind, lift.
  rewrite Hp, (dec_truediv_ok _ _ Hne). reflexivity.
Qed.

Lemma sell_quoted_empty (self : MarketPlayer) (book : Market)
      (q premium : Dec) (h : Havven) :
  asks (book_of book h) = [] ->
  _sell_quoted_ self book q premium h = (Raise EmptyBook, h).
Proof.
  intros E. unfold _sell_quoted_, bind.
  rewrite (lowest_ask_price_empty _ _ E). reflexivity.
Qed.

Lemma sell_quoted_with_fee_at (self : MarketPlayer)
      (received_qty_fn : Dec -> result Dec)
      (book : Market) (q premium p : Dec) (h : Havven) :
  lowest_ask_price book h = (Ok p, h) -> p <> 0 ->
  _sell_quoted_with_fee_ self received_qty_fn book q premium h
  = (net <- lift (received_qty_fn (dec_quotient q p)) ;;
     buy book net self premium) h.
Proof.
  intros Hp Hne. unfold _sell_quoted_with_fee_, bind, lift.
  rewrite Hp, (dec_truediv_ok _ _ Hne). reflexivity.
Qed.

Lemma sell_quoted_with_fee_empty (self : MarketPlayer)
      (received_qty_fn : Dec -> result Dec) (book : Market)
      (q premium : Dec) (h : Havven) :
  asks (book_of book h) = [] ->
  _sell_quoted_with_fee_ self received_qty_fn book q premium h
  = (Raise EmptyBook, h).
Proof.
  intros E. unfold _sell_quoted_with_fee_, bind.
  rewrite (lowest_ask_price_empty _ _ E). reflexivity.
Qed.

(** C5, amended. A quoted-currency sale of [q] asks the book for a bid of
    [q] divided by the current lowest ask price, the quotient being the one
    the division of the sources computes; the [_with_fee] variants ask for
    the fee function applied to that quotient, the fee coming after the
    division.  On an empty ask side the call raises [EmptyBook] and the
    model is left as it was, no order having been requested. *)
Theorem sell_quoted_bid_quantity
        (book : Market) (received : FeeManager -> Dec -> result Dec)
        (sell sell_with_fee : MarketPlayer -> Dec -> Dec -> M Bid) :
  In (book, received, sell, sell_with_fee) quoted_sales ->
  forall (self : MarketPlayer) (q premium : Dec) (h : Havven),
    (forall p, lowest_ask_price book h = (Ok p, h) -> p <> 0 ->
       sell self q premium h = buy book (dec_quotient q p) self premium h /\
       sell_with_fee self q premium h
       = (net <- lift (received (fee_manager h) (dec_quotient q p)) ;;
          buy book net self premium) h) /\
    (asks (book_of book h) = [] ->
       sell self q premium h = (Raise EmptyBook, h) /\
       sell_with_fee self q premium h = (Raise EmptyBook, h)).
Proof.
  intros Hin self q premium h.
  simpl in Hin.
  destruct Hin as [E | [E | [E | []]]]; inversion E; subst; clear E;
    (split;
     [ intros p Hp Hne; split;
       [ apply sell_quoted_at; assumption
       | apply (sell_quoted_with_fee_at self _ _ q premium p h Hp Hne) ]
     | intros Hempty; split;
       [ apply sell_quoted_empty; exact Hempty
       | apply (sell_quoted_with_fee_empty self _ _ q premium h Hempty) ] ]).
Qed.

(** C3. The fee being multiplicative, taking it commutes with scaling by
    a positive price: the net of [q * p], divided by [p], is the net of
    [q], for each asset's fee function.  Hence a fee-inclusive bid
    placement for quantity [q >= 0] at price [p], which takes the fee on
    [q], places the bid whose cost in the quote currency is the net of
    [q * p], and no other quantity has that cost. *)
Theorem fee_commutes_with_price (q p : Dec) :
  0 < p ->
  (forall fm : FeeManager,
      result_bind (transferred_fiat_received fm (q * p))
                  (fun net => dec_div net p)
      = transferred_fiat_received fm q /\
      result_bind (transferred_curits_received fm (q * p))
                  (fun net => dec_div net p)
      = transferred_curits_received fm q /\
      result_bind (transferred_nomins_received fm (q * p))
                  (fun net => dec_div net p)
      = transferred_nomins_received fm q) /\
  (forall book received place,
      In (book, received, place) fee_bids ->
      forall (self : MarketPlayer) (h : Havven),
        0 <= q ->
        exists qty,
          received (fee_manager h) q = Ok qty /\
          place self q p h = bid book p qty self h /\
          received (fee_manager h) (q * p) = Ok (p * qty) /\
          (forall x, received (fee_manager h) (q * p) = Ok (p * x) -> x = qty)).
Proof.
  intros Hp. pose proof (Qcpos_neq_0 _ Hp) as Hne. split.
  - intros fm.
    unfold transferred_fiat_received, transferred_curits_received,
      transferred_nomins_received.
    repeat split; apply transferred_received_scales; exact Hp.
  - intros book received place Hin self h Hq.
    simpl in Hin.
    destruct Hin as [E | [E | [E | []]]]; inversion E; subst; clear E.
    + destruct (fee_bid_cost (fiat_fee_rate (fee_manager h)) q p Hp Hq)
        as (qty & Hnet & Hcost & Huniq).
      exists qty. unfold place_curit_fiat_bid_with_fee, bind, get, lift.
      unfold transferred_fiat_received in *. rewrite Hnet. auto.
    + destruct (fee_bid_cost (fiat_fee_rate (fee_manager h)) q p Hp Hq)
        as (qty & Hnet & Hcost & Huniq).
      exists qty. unfold place_nomin_fiat_bid_with_fee, bind, get, lift.
      unfold transferred_fiat_received in *. rewrite Hnet. auto.
    + destruct (fee_bid_cost (nomins_fee_rate (fee_manager h)) q p Hp Hq)
        as (qty & Hnet & Hcost & Huniq).
      exists qty. unfold place_curit_nomin_bid_with_fee, bind, get, lift.
      unfold transferred_nomins_received in *. rewrite Hnet. auto.
Qed.

End TradingFacts.

Lemma sell_quoted_bid_quantity_witness :
  let E := resting_exchange in
  let q := Dec_of_Z 100 in
  let p := Dec_of_Z 2 in
  lowest_ask_price CuritFiat sample_havven = (Ok p, sample_havven) /\
  p <> 0 /\
  sell_fiat_for_curits sample_player q 0 sample_havven
  = buy CuritFiat (dec_quotient q p) sample_player 0 sample_havven /\
  sell_fiat_for_curits_with_fee sample_player q 0 sample_havven
  = (net <- lift (transferred_fiat_received (fee_manager sample_havven)
                                            (dec_quotient q p)) ;;
     buy CuritFiat net sample_player 0) sample_havven /\
  asks (book_of NominFiat sample_havven) = [] /\
  sell_fiat_for_nomins sample_player q 0 sample_havven
  = (Raise EmptyBook, sample_havven) /\
  sell_fiat_for_nomins_with_fee sample_player q 0 sample_havven
  = (Raise EmptyBook, sample_havven).
Proof.
  intros E q p.
  assert (Hbest : lowest_ask_price CuritFiat sample_havven = (Ok p, sample_havven))
    by reflexivity.
  assert (Hne : p <> 0) by dec_differ.
  assert (Hempty : asks (book_of NominFiat sample_havven) = []) by reflexivity.
  assert (Hcf : In (CuritFiat, transferred_fiat_received,
                    sell_fiat_for_curits, sell_fiat_for_curits_with_fee)
                   quoted_sales)
    by (right; left; reflexivity).
  assert (Hnf : In (NominFiat, transferred_fiat_received,
                    sell_fiat_for_nomins, sell_fiat_for_nomins_with_fee)
                   quoted_sales)
    by (right; right; left; reflexivity).
  destruct (sell_quoted_bid_quantity _ _ _ _ Hcf sample_player q 0 sample_havven)
    as [Hsized _].
  destruct (sell_quoted_bid_quantity _ _ _ _ Hnf sample_player q 0 sample_havven)
    as [_ Hraises].
  destruct (Hsized p Hbest Hne) as [Hplain Hfee].
  destruct (Hraises Hempty) as [Hplain0 Hfee0].
  repeat split; assumption.
Defined.

Lemma fee_commutes_with_price_witness :
  let E := resting_exchange in
  let q := Dec_of_Z 50 in
  let p := Dec_of_Z 2 in
  let fm := fee_manager sample_havven in
  0 < p /\ 0 <= q /\
  result_bind (transferred_fiat_received fm (q * p)) (fun net => dec_div net p)
  = transferred_fiat_received fm q /\
  exists qty,
    transferred_fiat_received fm q = Ok qty /\
    place_curit_fiat_bid_with_fee sample_player q p sample_havven
    = bid CuritFiat p qty sample_player sample_havven /\
    transferred_fiat_received fm (q * p) = Ok (p * qty) /\
    (forall x, transferred_fiat_received fm (q * p) = Ok (p * x) -> x = qty).
Proof.
  intros E q p fm.
  assert (Hp : 0 < p) by dec_order.
  assert (Hq : 0 <= q) by dec_order.
  destruct (fee_commutes_with_price q p Hp) as [Hfees Hbids].
  split; [exact Hp |]. split; [exact Hq |]. split.
  - exact (proj1 (Hfees fm)).
  - apply (Hbids CuritFiat transferred_fiat_received place_curit_fiat_bid_with_fee).
    + left; reflexivity.
    + exact Hq.
Defined.

(** ** Callbacks *)

(** C6. For every player and every order, [notify_cancelled] and
    [notify_filled] return nothing ([None]), raise nothing, and leave the
    model as it was. *)
Theorem notifications_are_silent
        (self : MarketPlayer) (order : LimitOrder) (h : Havven) :
  notify_cancelled self order h = (Ok tt, h) /\
  notify_filled self order h = (Ok tt, h).
Proof. split; reflexivity. Qed.

(** ** The banker's rate *)

(** C4, as stated, fails: with the same constructor arguments, two states
    of the module-level generator give two different rates. *)
Lemma banker_rate_not_fixed_by_arguments :
  rate (fst (@Banker_init sample_model 7 sample_havven (Dec_of_Z 100) 0 0
                          generator_half))
  <> rate (fst (@Banker_init sample_model 7 sample_havven (Dec_of_Z 100) 0 0
                             generator_quarter)).
Proof.
  intro E. apply (f_equal this) in E. vm_compute in E. discriminate E.
Qed.

(** C4, amended. [Banker.rate] is drawn at construction from the
    module-level generator, of which it takes one draw: the rate is
    [Dec(random.random() * 0.05)], whatever the constructor arguments, so
    two constructions from the same generator state have equal rates. *)
Theorem banker_rate_from_ambient_generator
        (model : Model) (uid : Z) (havven : Havven) (f c n : Dec)
        (g : Generator) :
  let made := @Banker_init model uid havven f c n g in
  rate (fst made)
  = Dec_of_float (PrimFloat.mul (fst (random_random g)) float_0_05) /\
  snd made = snd (random_random g) /\
  player (fst made) = @MarketPlayer_init model uid havven f c n /\
  (forall model' uid' havven' f' c' n',
      rate (fst (@Banker_init model' uid' havven' f' c' n' g))
      = rate (fst made)).
Proof.
  repeat split.
Qed.


(** * Further properties *)

(** ** Taking fractions of a reserve *)

Lemma Qcdiv_le_compat (q1 q2 d : Dec) : 0 < d -> q1 <= q2 -> q1 / d <= q2 / d.
Proof.
  intros Hd Hq. pose proof (Qcpos_neq_0 _ Hd) as Hne.
  apply Qcmult_lt_0_le_reg_r with d; [exact Hd |].
  replace (q1 / d * d) with q1 by (field; exact Hne).
  replace (q2 / d * d) with q2 by (field; exact Hne).
  exact Hq.
Qed.

Lemma py_min_le_l (a b : Dec) : py_min a b <= a.
Proof.
  unfold py_min; destruct (Qclt_le_dec b a) as [L | L].
  - apply Qclt_le_weak, L.
  - apply Qcle_refl.
Qed.

Lemma py_min_glb (a b c : Dec) : c <= a -> c <= b -> c <= py_min a b.
Proof. intros; unfold py_min; destruct (Qclt_le_dec b a); assumption. Qed.

Lemma py_max_ge_r (a b : Dec) : b <= py_max a b.
Proof.
  unfold py_max; destruct (Qclt_le_dec a b) as [L | L].
  - apply Qcle_refl.
  - exact L.
Qed.

Lemma py_min_eq_r (a b : Dec) : b <= a -> py_min a b = b.
Proof.
  intros Hba. apply Qcle_antisym; [apply py_min_le_r |].
  apply py_min_glb; [exact Hba | apply Qcle_refl].
Qed.

Lemma py_min_eq_l (a b : Dec) : a <= b -> py_min a b = a.
Proof.
  intros Hab. apply Qcle_antisym; [apply py_min_le_l |].
  apply py_min_glb; [apply Qcle_refl | exact Hab].
Qed.

Lemma py_max_eq_l (a b : Dec) : b <= a -> py_max a b = a.
Proof.
  intros Hba. apply Qcle_antisym; [| apply py_max_ge_l].
  apply py_max_lub; [apply Qcle_refl | exact Hba].
Qed.

Lemma py_max_eq_r (a b : Dec) : a <= b -> py_max a b = b.
Proof.
  intros Hab. apply Qcle_antisym; [| apply py_max_ge_r].
  apply py_max_lub; [exact Hab | apply Qcle_refl].
Qed.

Lemma fraction_value (qty divisor minimum : Dec) :
  divisor <> 0 ->
  _fraction_ qty divisor minimum
  = Ok (py_max (dec_quotient qty divisor) (py_min minimum qty)).
Proof.
  intros Hne. unfold _fraction_. rewrite (dec_truediv_ok _ _ Hne). reflexivity.
Qed.

Lemma one_le_neq_0 (d : Dec) : 1 <= d -> d <> 0.
Proof. intros Hd E; subst d. apply (Qcle_not_lt _ _ Hd). reflexivity. Qed.

(** X1. The three regimes of [_fraction_] on a non-negative reserve of at
    most 28 significant digits, with a divisor of at least one: a reserve
    not above the minimum is taken whole; otherwise the result is the
    larger of the computed quotient and the minimum. *)
Theorem fraction_regimes (qty divisor minimum : Dec) :
  0 <= qty -> 1 <= divisor -> round_context qty = qty ->
  (qty <= minimum -> _fraction_ qty divisor minimum = Ok qty) /\
  (minimum <= qty -> minimum <= dec_quotient qty divisor ->
   _fraction_ qty divisor minimum = Ok (dec_quotient qty divisor)) /\
  (minimum <= qty -> dec_quotient qty divisor <= minimum ->
   _fraction_ qty divisor minimum = Ok minimum).
Proof.
  intros Hq Hd Hfits.
  rewrite (fraction_value _ _ _ (one_le_neq_0 _ Hd)).
  assert (Hpart : dec_quotient qty divisor <= qty).
  { rewrite <- Hfits at 2.
    apply round_context_monotone, Qcdiv_le_self; assumption. }
  repeat split.
  - intros Hle. rewrite (py_min_eq_r _ _ Hle), (py_max_eq_r _ _ Hpart).
    reflexivity.
  - intros Hle Hfrac. rewrite (py_min_eq_l _ _ Hle), (py_max_eq_l _ _ Hfrac).
    reflexivity.
  - intros Hle Hfrac. rewrite (py_min_eq_l _ _ Hle), (py_max_eq_r _ _ Hfrac).
    reflexivity.
Qed.

Ltac dec_fits := apply Qc_is_canon; vm_compute; reflexivity.

Lemma fraction_regimes_witness :
  (0 <= Dec_of_Z 10 /\ 1 <= Dec_of_Z 3 /\
   round_context (Dec_of_Z 10) = Dec_of_Z 10) /\
  _fraction_ (Q2Qc (1 # 2)) (Dec_of_Z 3) 1 = Ok (Q2Qc (1 # 2)) /\
  _fraction_ (Dec_of_Z 10) (Dec_of_Z 3) 1
  = Ok (dec_quotient (Dec_of_Z 10) (Dec_of_Z 3)) /\
  _fraction_ (Dec_of_Z 2) (Dec_of_Z 3) 1 = Ok 1.
Proof.
  assert (Hd : 1 <= Dec_of_Z 3) by dec_order.
  assert (H2 : 0 <= Dec_of_Z 2) by dec_order.
  assert (H10 : 0 <= Dec_of_Z 10) by dec_order.
  assert (Hh : 0 <= Q2Qc (1 # 2)) by dec_order.
  assert (F2 : round_context (Dec_of_Z 2) = Dec_of_Z 2) by dec_fits.
  assert (F10 : round_context (Dec_of_Z 10) = Dec_of_Z 10) by dec_fits.
  assert (Fh : round_context (Q2Qc (1 # 2)) = Q2Qc (1 # 2)) by dec_fits.
  split; [repeat split; assumption |]. split; [| split].
  - apply (proj1 (fraction_regimes (Q2Qc (1 # 2)) (Dec_of_Z 3) 1 Hh Hd Fh)).
    dec_order.
  - apply (proj1 (proj2 (fraction_regimes (Dec_of_Z 10) (Dec_of_Z 3) 1
                                          H10 Hd F10)));
      dec_order.
  - apply (proj2 (proj2 (fraction_regimes (Dec_of_Z 2) (Dec_of_Z 3) 1
                                          H2 Hd F2)));
      dec_order.
Defined.

(** X2. [_fraction_] is monotone in the reserve, for a positive divisor:
    a larger reserve never yields a smaller fraction. *)
Theorem fraction_monotone (q1 q2 divisor minimum : Dec) :
  0 < divisor -> q1 <= q2 ->
  exists v1 v2,
    _fraction_ q1 divisor minimum = Ok v1 /\
    _fraction_ q2 divisor minimum = Ok v2 /\
    v1 <= v2.
Proof.
  intros Hd Hq. pose proof (Qcpos_neq_0 _ Hd) as Hne.
  rewrite !(fraction_value _ _ _ Hne).
  do 2 eexists. split; [reflexivity |]. split; [reflexivity |].
  apply py_max_lub.
  - apply Qcle_trans with (dec_quotient q2 divisor); [| apply py_max_ge_l].
    apply round_context_monotone, Qcdiv_le_compat; assumption.
  - apply Qcle_trans with (py_min minimum q2); [| apply py_max_ge_r].
    apply py_min_glb; [apply py_min_le_l |].
    apply Qcle_trans with q1; [apply py_min_le_r | exact Hq].
Qed.

Lemma fraction_monotone_witness :
  0 < Dec_of_Z 3 /\ Dec_of_Z 2 <= Dec_of_Z 6 /\
  exists v1 v2,
    _fraction_ (Dec_of_Z 2) (Dec_of_Z 3) 1 = Ok v1 /\
    _fraction_ (Dec_of_Z 6) (Dec_of_Z 3) 1 = Ok v2 /\
    v1 <= v2.
Proof.
  assert (Hd : 0 < Dec_of_Z 3) by dec_order.
  assert (Hq : Dec_of_Z 2 <= Dec_of_Z 6) by dec_order.
  split; [exact Hd |]. split; [exact Hq |].
  exact (fraction_monotone (Dec_of_Z 2) (Dec_of_Z 6) (Dec_of_Z 3) 1 Hd Hq).
Defined.

(** ** Wealth, profit and the reference wealth *)

Section ProfitFacts.

Context `{Model}.

Lemma profit_fraction_zero_or_ratio (havven : Havven) (self : MarketPlayer) :
  profit_fraction havven self = Ok 0 \/
  (initial_wealth self <> 0 /\
   profit_fraction havven self
   = Ok (dec_quotient (profit havven self) (initial_wealth self))).
Proof.
  unfold profit_fraction.
  destruct (dec_neqb (round_decimal (manager havven) (initial_wealth self)) 0)
    eqn:E.
  - right. apply dec_neqb_true in E.
    pose proof (round_decimal_nonzero _ _ E) as Hne.
    rewrite (dec_truediv_ok _ _ Hne). split; [exact Hne | reflexivity].
  - left. reflexivity.
Qed.

(** X4. A freshly constructed player has made no profit: [profit()] is
    [0] and [profit_fraction()] returns [0], whatever the initial balances
    and the valuation. *)
Theorem no_profit_at_construction
        (uid : Z) (havven : Havven) (f c n : Dec) :
  let self := MarketPlayer_init uid havven f c n in
  initial_wealth self = wealth havven self /\
  profit havven self = 0 /\
  profit_fraction havven self = Ok 0.
Proof.
  intros self.
  assert (Hiw : initial_wealth self = wealth havven self) by reflexivity.
  assert (Hp : profit havven self = 0).
  { unfold profit. rewrite Hiw. apply dec_sub_diag. }
  repeat split; [exact Hp |].
  destruct (profit_fraction_zero_or_ratio havven self) as [E | [Hne E]];
    rewrite E; [reflexivity |].
  rewrite Hp, dec_quotient_0_l. reflexivity.
Qed.

(** X5. Resetting the reference wealth twice in a row changes nothing the
    second time: the second call returns the current wealth and leaves the
    player as the first call left it. *)
Theorem reset_initial_wealth_twice (havven : Havven) (self : MarketPlayer) :
  let once := snd (reset_initial_wealth havven self) in
  reset_initial_wealth havven once = (wealth havven self, once).
Proof.
  intros once. unfold reset_initial_wealth. subst once. simpl.
  rewrite wealth_set_initial_wealth. reflexivity.
Qed.

(** X7. [wealth()] sees the balances only through [fiat],
    [curits + escrowed_curits] and [nomins - issued_nomins]: moving curits
    into or out of escrow, or issuing or burning nomins, changes neither
    [wealth()] nor, with the reference wealth kept, [profit()], under any
    valuation; reservations play no part. *)
Theorem wealth_blind_to_escrow_and_issuance
        (havven : Havven) (before after : MarketPlayer) :
  fiat after = fiat before ->
  curits after + escrowed_curits after
  = curits before + escrowed_curits before ->
  nomins after - issued_nomins after
  = nomins before - issued_nomins before ->
  wealth havven after = wealth havven before /\
  (initial_wealth after = initial_wealth before ->
   profit havven after = profit havven before).
Proof.
  intros Hf Hc Hn.
  assert (Hw : wealth havven after = wealth havven before).
  { unfold wealth, dec_add, dec_sub. rewrite Hf, Hc, Hn. reflexivity. }
  split; [exact Hw |].
  intros Hi. unfold profit. rewrite Hw, Hi. reflexivity.
Qed.

End ProfitFacts.

Lemma wealth_blind_to_escrow_and_issuance_witness :
  fiat holder_after = fiat holder_before /\
  curits holder_after + escrowed_curits holder_after
  = curits holder_before + escrowed_curits holder_before /\
  nomins holder_after - issued_nomins holder_after
  = nomins holder_before - issued_nomins holder_before /\
  @wealth sample_model sample_havven holder_after
  = @wealth sample_model sample_havven holder_before /\
  @profit sample_model sample_havven holder_after
  = @profit sample_model sample_havven holder_before.
Proof.
  assert (Hf : fiat holder_after = fiat holder_before) by reflexivity.
  assert (Hc : curits holder_after + escrowed_curits holder_after
               = curits holder_before + escrowed_curits holder_before)
    by (apply Qc_is_canon; reflexivity).
  assert (Hn : nomins holder_after - issued_nomins holder_after
               = nomins holder_before - issued_nomins holder_before)
    by (apply Qc_is_canon; reflexivity).
  destruct (@wealth_blind_to_escrow_and_issuance sample_model sample_havven
              holder_before holder_after Hf Hc Hn) as [Hw Hp].
  repeat (split; [assumption |]).
  apply Hp. reflexivity.
Defined.

(** ** The rounding threshold *)

Lemma round_half_even_Z (n D : Z) :
  (0 < D)%Z ->
  let f := (n / D)%Z in
  let r := (2 * (n mod D))%Z in
  (if (r <? D)%Z then f
   else if (D <? r)%Z then (f + 1)%Z
        else if Z.even f then f else (f + 1)%Z) = 0%Z
  <-> (- D <= 2 * n <= D)%Z.
Proof.
  intros HD f r. subst r.
  pose proof (Z.div_mod n D ltac:(lia)) as Hdm.
  pose proof (Z.mod_pos_bound n D HD) as Hm.
  fold f in Hdm. set (m := (n mod D)%Z) in *. clearbody f m.
  destruct (Z.ltb_spec (2 * m) D) as [L1 | L1].
  - split; [intros E; rewrite E in Hdm; lia | intros [Ha Hb]; nia].
  - destruct (Z.ltb_spec D (2 * m)) as [L2 | L2].
    + split; [intros E; assert (f = -1)%Z by lia; subst f; lia
             | intros [Ha Hb]; nia].
    + assert (E2 : (2 * m = D)%Z) by lia.
      destruct (Z.even f) eqn:Ev.
      * split; [intros E; rewrite E in Hdm; lia |].
        intros [Ha Hb]. apply Z.even_spec in Ev. destruct Ev as [k Hk]. nia.
      * split; [intros E; assert (f = -1)%Z by lia; subst f; lia |].
        intros [Ha Hb].
        assert (Ho : Z.odd f = true) by (rewrite <- Z.negb_even, Ev; reflexivity).
        apply Z.odd_spec in Ho. destruct Ho as [k Hk]. nia.
Qed.

Lemma round_half_even_zero_iff (y : Q) :
  round_half_even y = 0%Z <-> (- (1 # 2) <= y /\ y <= 1 # 2)%Q.
Proof.
  destruct y as [n d]. unfold round_half_even.
  cbn [Qnum Qden].
  rewrite (round_half_even_Z n (Zpos d) ltac:(reflexivity)).
  unfold Qle. cbn [Qnum Qden Qopp]. lia.
Qed.

Lemma display_scale_pos (ndigits : Z) : (0 < Qpower (inject_Z 10) ndigits)%Q.
Proof. apply Qpower_0_lt. reflexivity. Qed.

Lemma dec_round_zero_iff (x : Dec) (ndigits : Z) :
  dec_round x ndigits = 0
  <-> (- (1 # 2) <= x * Qpower (inject_Z 10) ndigits
       /\ x * Qpower (inject_Z 10) ndigits <= 1 # 2)%Q.
Proof.
  unfold dec_round. cbv zeta.
  pose proof (display_scale_pos ndigits) as Hs.
  set (scale := Qpower (inject_Z 10) ndigits) in *.
  rewrite <- round_half_even_zero_iff.
  set (r := round_half_even (x * scale)).
  assert (Hinv : ~ (/ scale == 0)%Q).
  { intro Hz. apply (Qlt_irrefl 0).
    rewrite <- Hz at 2. apply Qinv_lt_0_compat, Hs. }
  change 0 with (Q2Qc (inject_Z 0)). rewrite Q2Qc_eq_iff.
  split.
  - intros E. apply inject_Z_injective.
    apply (Qmult_inj_r _ _ (/ scale) Hinv).
    unfold Qdiv in E. rewrite E. ring.
  - intros E. rewrite E. unfold Qdiv. ring.
Qed.

Lemma half_unit_spec (hm : HavvenManager) :
  (half_unit hm * (2 * Qpower (inject_Z 10) (currency_precision hm)) == 1)%Q.
Proof.
  pose proof (display_scale_pos (currency_precision hm)) as Hs.
  unfold half_unit. cbn [this Q2Qc]. rewrite Qred_correct.
  field. intro Hz. rewrite Hz in Hs. discriminate Hs.
Qed.

(** Rounding to the display precision gives zero exactly within half a
    unit of the last digit of zero, both ends included (ties go to even). *)
Lemma round_decimal_zero_iff (hm : HavvenManager) (x : Dec) :
  round_decimal hm x = 0 <-> - half_unit hm <= x /\ x <= half_unit hm.
Proof.
  unfold round_decimal. rewrite dec_round_zero_iff.
  pose proof (display_scale_pos (currency_precision hm)) as Hs.
  pose proof (half_unit_spec hm) as Hh.
  set (scale := Qpower (inject_Z 10) (currency_precision hm)) in *.
  unfold Qcle, Qcopp. cbn [this Q2Qc]. rewrite Qred_correct.
  set (h := this (half_unit hm)) in *. set (y := this x).
  split; intros [Ha Hb]; split; nra.
Qed.

Section DeadZone.

Context `{Model}.

(** X8. The zero branch of [profit_fraction()] is taken exactly when the
    reference wealth lies within half a unit of the last displayed digit of
    zero, ends included: there the method returns [0] whatever the profit;
    outside, the reference wealth is nonzero and the quotient is
    returned. *)
Theorem profit_fraction_dead_zone (havven : Havven) (self : MarketPlayer) :
  let half := half_unit (manager havven) in
  (- half <= initial_wealth self /\ initial_wealth self <= half ->
   profit_fraction havven self = Ok 0) /\
  (initial_wealth self < - half \/ half < initial_wealth self ->
   initial_wealth self <> 0 /\
   profit_fraction havven self
   = Ok (dec_quotient (profit havven self) (initial_wealth self))).
Proof.
  intros half. subst half. unfold profit_fraction. split.
  - intros Hin. apply round_decimal_zero_iff in Hin.
    rewrite (proj2 (dec_neqb_false _ _) Hin). reflexivity.
  - intros Hout.
    assert (Hr : round_decimal (manager havven) (initial_wealth self) <> 0).
    { intro E. apply round_decimal_zero_iff in E. destruct E as [Ha Hb].
      destruct Hout as [L | L].
      - exact (Qcle_not_lt _ _ Ha L).
      - exact (Qcle_not_lt _ _ Hb L). }
    pose proof (round_decimal_nonzero _ _ Hr) as Hne.
    rewrite (proj2 (dec_neqb_true _ _) Hr), (dec_truediv_ok _ _ Hne).
    split; [exact Hne | reflexivity].
Qed.

End DeadZone.

(** At two digits, a reference wealth of exactly half a cent is still
    inside the zero branch, and one of 100 is outside. *)
Lemma profit_fraction_dead_zone_witness :
  let half := half_unit (manager sample_havven) in
  let edge := set_initial_wealth sample_player (Q2Qc (5 # 1000)) in
  (- half <= initial_wealth edge /\ initial_wealth edge <= half) /\
  @profit_fraction sample_model sample_havven edge = Ok 0 /\
  half < initial_wealth sample_player /\
  @profit_fraction sample_model sample_havven sample_player
  = Ok (dec_quotient (@profit sample_model sample_havven sample_player)
                     (initial_wealth sample_player)).
Proof.
  intros half edge.
  assert (Hin : - half <= initial_wealth edge /\ initial_wealth edge <= half)
    by (split; dec_order).
  assert (Hout : half < initial_wealth sample_player) by dec_order.
  destruct (@profit_fraction_dead_zone sample_model sample_havven edge)
    as [Hzero _].
  destruct (@profit_fraction_dead_zone sample_model sample_havven sample_player)
    as [_ Hratio].
  split; [exact Hin |]. split; [exact (Hzero Hin) |].
  split; [exact Hout |].
  exact (proj2 (Hratio (or_intror Hout))).
Defined.

(** ** Names *)

Lemma append_cancel_l (p s1 s2 : string) :
  String.append p s1 = String.append p s2 -> s1 = s2.
Proof.
  induction p as [| a p IH]; simpl; intros E.
  - exact E.
  - apply IH. congruence.
Qed.

Lemma Z_to_int_printable (z : Z) :
  Z.to_int z <> Decimal.Pos Decimal.Nil /\ Z.to_int z <> Decimal.Neg Decimal.Nil.
Proof.
  destruct z as [| p | p]; simpl; split; try discriminate;
    intros E; injection E as E;
    exact (DecimalPos.Unsigned.to_uint_nonnil p E).
Qed.

Lemma print_Z_inj (z1 z2 : Z) :
  NilZero.string_of_int (Z.to_int z1) = NilZero.string_of_int (Z.to_int z2) ->
  z1 = z2.
Proof.
  intros E. apply DecimalZ.to_int_inj.
  destruct (Z_to_int_printable z1) as [Hp1 Hn1].
  destruct (Z_to_int_printable z2) as [Hp2 Hn2].
  pose proof (NilZero.isi _ Hp1 Hn1) as R1.
  pose proof (NilZero.isi _ Hp2 Hn2) as R2.
  rewrite E in R1. rewrite R1 in R2. congruence.
Qed.

(** X9. Names identify agents: [str(agent)] is the name; two agents of one
    class have the same name only if they have the same [unique_id]; and a
    [Banker] never has the name of a plain [MarketPlayer]. *)
Theorem names_identify_agents :
  (forall class_name self, __str__ class_name self = name class_name self) /\
  (forall class_name a b,
      name class_name a = name class_name b -> unique_id a = unique_id b) /\
  (forall a b, MarketPlayer_name a <> Banker_name b).
Proof.
  split; [reflexivity |]. split.
  - intros class_name a b E. unfold name in E.
    apply append_cancel_l in E. injection E as E.
    exact (print_Z_inj _ _ E).
  - intros a b E. unfold MarketPlayer_name, Banker_name, name in E.
    simpl in E. discriminate E.
Qed.
